(** * Chassis.Model: the observable attribute model of src/model/model.js

    A shallow embedding of the constructor [Model] and of the methods
    [get], [has], [set], [toJSON], [fetch], [parse], [change] and [sync]
    that model.js mixes into [Model.prototype], followed by the properties
    of the attribute store and of the fetch life cycle.

    What model.js only consumes is taken by its contract: the [Events] mixin
    ([trigger]), [Chassis.$] ([each], [ajax]), [Chassis.mixin],
    [Chassis.clone] and [Chassis.uniqueId].  Calls that leave model.js are
    recorded, in order, in the instance's [log].

    model.js has no strict directive: it is read as the non-strict code it
    is. *)

From Stdlib Require Import ZArith.
From stdpp Require Import gmap strings list fin_maps pretty.

Set Warnings "-register-all".

(** ** JavaScript values *)

(** The values the code tells apart.  Numbers are the integers; a plain
    object is the finite map of its own enumerable properties (an array is the
    object of its indices).  What a plain object inherits is in
    [Object_prototype].

    A function value is one of the three function literals of [fetch], a
    function of the caller, known by its text, or a function of
    [Object.prototype]; it carries no property the code reads. *)
Inductive value :=
| VUndefined
| VNull
| VBool (b : bool)
| VNum (z : Z)
| VStr (s : string)
| VObj (props : gmap string value)
| VFun (f : func)
with func :=
| FCaller (text : string)
| FNoop                                  (* function() {}           l.255 *)
| FSuccess (opts : gmap string value)    (* function( resp ) {...}  l.260 *)
| FError                                 (* function() {...}        l.266 *)
| FNative (name : string).               (* Object.prototype[ name ]      *)

Abbreviation obj := (gmap string value).

(** [!v] is false exactly for the falsy values. *)
Definition truthy (v : value) : bool :=
  match v with
  | VUndefined | VNull => false
  | VBool b => b
  | VNum z => negb (z =? 0)%Z
  | VStr s => negb (String.eqb s EmptyString)
  | VObj _ | VFun _ => true
  end.

Definition typeof (v : value) : string :=
  match v with
  | VUndefined => "undefined"
  | VNull | VObj _ => "object"
  | VBool _ => "boolean"
  | VNum _ => "number"
  | VStr _ => "string"
  | VFun _ => "function"
  end.

(** [v === null] *)
Definition is_null (v : value) : bool :=
  match v with VNull => true | _ => false end.

Definition func_text (f : func) : string :=
  match f with
  | FCaller text => text
  | FNoop => "function() {}"
  | FSuccess _ => "function( resp ) {...}"
  | FError => "function() {...}"
  | FNative name => "function " +:+ name +:+ "() { [native code] }"
  end.

(** The property name [o[ v ]] addresses.  For a number it is the decimal
    numeral, which is what JavaScript prints for the integers below 10^21 in
    magnitude; see [scalar]. *)
Definition ToPropertyKey (v : value) : string :=
  match v with
  | VUndefined => "undefined"
  | VNull => "null"
  | VBool true => "true"
  | VBool false => "false"
  | VNum z => pretty z
  | VStr s => s
  | VObj _ => "[object Object]"
  | VFun f => func_text f
  end.

(** The own enumerable properties of [v]; a value that is not an object has
    none that the code looks at (the characters of a string are not
    counted). *)
Definition own_props (v : value) : obj :=
  match v with VObj props => props | _ => ∅ end.

(** [v[ k ]] for an own property [k], [undefined] where there is no such
    property. *)
Definition get_prop (v : value) (k : string) : value :=
  default VUndefined (own_props v !! k).

(** What a plain object inherits from [Object.prototype], by name: the
    prototype itself under ['__proto__'], and the functions of the standard
    and of the engines. *)
Definition Object_prototype (name : string) : option value :=
  if bool_decide (name = "__proto__") then Some (VObj ∅)
  else if bool_decide
            (name ∈ ["constructor"; "toString"; "toLocaleString"; "valueOf";
                     "hasOwnProperty"; "isPrototypeOf";
                     "propertyIsEnumerable"; "__defineGetter__";
                     "__defineSetter__"; "__lookupGetter__";
                     "__lookupSetter__"])
       then Some (VFun (FNative name))
       else None.



(** A mapping whose properties are its attributes: it has no property
    [length], by which [Chassis.$.each] tells the arrays, and no property
    ['__proto__'], whose assignment sets the prototype of an object and not
    a property. *)
Definition plain (o : obj) : bool :=
  match o !! "length", o !! "__proto__" with
  | None, None => true
  | _, _ => false
  end.

(** ** The instance and its store *)

(** Objects the code mutates in place, the attribute snapshots, live in a
    store and are held by location; a location is an index into the store.
    Objects the code only reads (arguments, options, responses) are values. *)
Abbreviation loc := nat.

(** What is passed where [me] itself can be passed. *)
Inductive arg :=
| Me
| Val (v : value).

Inductive event :=
| EvUniqueId (prefix : string)          (* Chassis.uniqueId( prefix ) *)
| EvTrigger (channel : string) (payload : list arg)
                                        (* me.trigger( channel, ... ) *)
| EvInit (args : list value)            (* me.init.apply( me, args ) *)
| EvUrl                                 (* me.url() *)
| EvParse (resp opts : value)           (* me.parse( resp, opts ) *)
| EvCall (f : func) (args : list value) (* f.call( me, ... ) *)
| EvCallOn (this : value) (f : func) (args : list arg)
                                        (* this.call( ... ), the [call] of
                                           an object [this] being [f] *)
| EvAjax (request : value).             (* Chassis.$.ajax.call( me, request ) *)

(** [own] holds the own properties written as [me[ me.idAttribute ]]; the
    configured [idAttribute] is taken not to name a member the code itself
    uses ([attributes], [cid], [_previousAttributes] or a method). *)
Record model := Build_model {
  store : list obj;
  attributes : loc;
  _previousAttributes : option loc;
  cid : string;
  own : obj;
  log : list event
}.

Definition with_store (f : list obj → list obj) (me : model) : model :=
  Build_model (f (store me)) (attributes me) (_previousAttributes me)
              (cid me) (own me) (log me).

Definition with_previous (p : option loc) (me : model) : model :=
  Build_model (store me) (attributes me) p (cid me) (own me) (log me).

Definition with_own (f : obj → obj) (me : model) : model :=
  Build_model (store me) (attributes me) (_previousAttributes me)
              (cid me) (f (own me)) (log me).

Definition with_log (f : list event → list event) (me : model) : model :=
  Build_model (store me) (attributes me) (_previousAttributes me)
              (cid me) (own me) (f (log me)).

(** The object at a location, and the current and previous snapshots. *)
Definition deref (l : loc) (me : model) : obj := default ∅ (store me !! l).

Definition current (me : model) : obj := deref (attributes me) me.

Definition previous (me : model) : option obj :=
  l ← _previousAttributes me; store me !! l.

(** The snapshot object of an instance is allocated: so it is from the
    construction on, see [reachable_wf]. *)
Definition wf (me : model) : Prop := attributes me < length (store me).

(** ** Method bodies: a state monad over the instance *)

Definition M (A : Type) : Type := model → A * model.

Definition ret {A} (a : A) : M A := λ me, (a, me).

Definition bind {A B} (m : M A) (k : A → M B) : M B :=
  λ me, let (a, me') := m me in k a me'.

Declare Scope js_scope.
Delimit Scope js_scope with js.
Notation "'var' x '<-' m ';' k" := (bind m (λ x, k))
  (at level 10, x name, m at level 100, k at level 200) : js_scope.
Notation "m ';;;' k" := (bind m (λ _, k))
  (at level 100, k at level 200, right associativity) : js_scope.
Bind Scope js_scope with M.
Local Open Scope js_scope.

Definition exec {A} (m : M A) (me : model) : model := snd (m me).
Definition result {A} (m : M A) (me : model) : A := fst (m me).

Definition skip : M unit := ret tt.

(** [{}] and object copies are new objects of the store. *)
Definition alloc (o : obj) : M loc :=
  λ me, (length (store me), with_store (λ st, st ++ [o]) me).

Definition update (l : loc) (f : obj → obj) : M unit :=
  λ me, (tt, with_store (alter f l) me).

Definition emit (e : event) : M unit :=
  λ me, (tt, with_log (λ es, es ++ [e]) me).

Definition this_attributes : M loc := λ me, (attributes me, me).

(** ** What model.js consumes *)

(** Modelled from the spec: [Chassis.mixin] is not in model.js.
    [mixin( target, ...sources )] shallow-merges the sources into the target
    from left to right, later sources win, and returns the target.  (The
    union [m1 ∪ m2] of two maps has the values of [m1] on common keys.) *)
Definition mixin (target : obj) (sources : list obj) : obj :=
  foldl (λ acc src, src ∪ acc) target sources.

(** Modelled from the spec: [Chassis.clone] is not in model.js.
    [clone( value )] returns an independent structural copy: of an object of
    the store, a new object with the same properties; of a value, which
    nothing can mutate, the value. *)
Definition clone (l : loc) : M loc :=
  λ me, alloc (deref l me) me.

Definition clone_value (v : value) : value := v.

(** Modelled from the spec: [Chassis.uniqueId] is not in model.js.  It
    produces a string unique among all instances created in the process, given
    a prefix: the prefix followed by a counter that only grows. *)
Definition uniqueId (prefix : string) (counter : nat) : string * nat :=
  (prefix +:+ pretty (S counter), S counter).

(** Modelled from the spec: the [Events] mixin is not in model.js.
    [trigger( channel, ...payload )] publishes on the channel of the
    instance; the publication is recorded, the dispatch to the listeners is
    the hub's. *)
Definition trigger (channel : string) (payload : list arg) : M unit :=
  emit (EvTrigger channel payload).

(** [Chassis.$] is the DOM library under Chassis (jQuery or Zepto), not
    part of model.js.  [each( o, f )] walks an object whose [length] is a
    number as an array, [f( i, o[ i ] )] for every index [i] below [length]
    (none for length 0), and any other object by its own enumerable
    properties, [f( key, item )]; [f] never returns [false] here, so the
    walk is not cut short.  (This is Zepto's test.  jQuery walks an object
    with a positive [length] as an array only if [length - 1] is a property
    of it, and its early versions any object with a [length]; they all agree
    on the objects with [length] 0 and on those without [length].) *)
Definition indexed (o : obj) (n : nat) : list (string * value) :=
  (λ i : nat, (pretty i, default VUndefined (o !! pretty i))) <$> seq 0 n.

Definition each (o : obj) (f : string → value → M unit) : M unit :=
  match o !! "length" with
  | Some (VNum n) =>
      foldl (λ done entry, done ;;; f entry.1 entry.2) skip
        (indexed o (Z.to_nat n))
  | _ => map_fold (λ key item done, done ;;; f key item) skip o
  end.

(** The properties [each( o, f )] passes to [f]: those of [o] itself, or,
    of an object walked as an array, its indices below [length]. *)
Definition written (o : obj) : obj :=
  match o !! "length" with
  | Some (VNum n) => list_to_map (reverse (indexed o (Z.to_nat n)))
  | _ => o
  end.

(** How a call ends: it returns, or it throws a [TypeError]. *)
Inductive outcome :=
| Returned
| TypeError.

(** ** The prototype *)

(** What a model type declares: [idAttribute], [defaults] ([undefined] when
    it declares none) and the overridable [url] and [parse].  [init] is the
    caller's; its call is recorded. *)
Record proto := Build_proto {
  idAttribute : string;
  defaults : value;
  url : model → value;
  parse : value → value → value
}.

(** [Model.prototype] as model.js leaves it. *)
Definition Model_prototype : proto :=
  {| idAttribute := "id";
     defaults := VUndefined;
     url := λ _, VUndefined;
     parse := λ resp _, resp |}.

Section Methods.

Variable T : proto.

(** get : function( key ), l.100.  [this.attributes[ key ]] is the own
    property, else the inherited one, else [undefined]. *)
Definition get (key : string) (me : model) : value :=
  default (default VUndefined (Object_prototype key)) (current me !! key).

(** has : function( key ), l.124 *)
Definition has (key : string) (me : model) : bool :=
  negb (is_null (get key me)).

(** The two call forms of [set], l.169-178: the incoming mapping [attrs] and
    the options in force. *)
Definition normalize (key val opts : value) : obj * value :=
  let '(attrs, opts) :=
    if String.eqb (typeof key) "object" then (own_props key, val)
    else ({[ ToPropertyKey key := val ]}, opts) in
  let opts := if truthy opts then opts else VObj ∅ in
  (attrs, opts).

(** set : function( key, val, opts ), l.153 *)
Definition set (key val opts : value) : M arg :=
  if is_null key then ret Me
  else
    let '(attrs, opts) := normalize key val opts in
    var a <- this_attributes;
    var prev <- clone a;
    (λ me, (tt, with_previous (Some prev) me)) ;;;
    match attrs !! idAttribute T with
    | Some id => λ me, (tt, with_own (insert (idAttribute T) id) me)
    | None => skip
    end ;;;
    each attrs (λ key item,
      if truthy (get_prop opts "unset")
      then update a (delete key)
      else update a (insert key item)) ;;;
    (if negb (truthy (get_prop opts "silent"))
     then trigger "change" [Me]
     else skip) ;;;
    ret (Val VUndefined).

(** toJSON : function(), l.220 *)
Definition toJSON : M loc :=
  var a <- this_attributes; clone a.

(** change : function(), l.313 *)
Definition change : M unit := trigger "change" [].

(** sync : function( opts ), l.317; the request [Chassis.$.ajax] is given
    is recorded. *)
Definition sync (opts : value) : M unit := emit (EvAjax opts).

(** [f.call( me )], l.263: [call] is looked up on [f] and called.  On a
    function it calls the function on [me], which is recorded; on an object
    with an own [call] that is a function it calls that one, on the object
    and with [me] as argument; anything else has no [call] to call. *)
Definition call (f : value) : M outcome :=
  match f with
  | VFun f => emit (EvCall f []) ;;; ret Returned
  | VObj o =>
      match o !! "call" with
      | Some (VFun g) => emit (EvCallOn f g [Me]) ;;; ret Returned
      | _ => ret TypeError
      end
  | _ => ret TypeError
  end.

(** What [f.call( me )] can call. *)
Definition callable (f : value) : bool :=
  match f with
  | VFun _ => true
  | VObj o => match o !! "call" with Some (VFun _) => true | _ => false end
  | _ => false
  end.

(** success : function( resp ), l.260, over the [opts] of its [fetch] *)
Definition success (opts : obj) (resp : value) : M outcome :=
  emit (EvParse resp (VObj opts)) ;;;
  let resp := parse T resp (VObj opts) in
  var called <- call (get_prop (VObj opts) "success");
  match called with
  | TypeError => ret TypeError
  | Returned => set resp (VObj opts) VUndefined ;;; ret Returned
  end.

(** error : function(), l.266 *)
Definition error : M outcome :=
  trigger "error" [] ;;; ret Returned.

(** The options of a [fetch], l.251-256. *)
Definition fetch_options (opts : value) : obj :=
  let opts := if truthy opts then clone_value opts else VObj ∅ in
  mixin ∅ [ {[ "dataType" := VStr "json";
               "success" := VFun FNoop ]};
            own_props opts ].

(** fetch : function( opts ), l.247 *)
Definition fetch (opts : value) : M unit :=
  let opts := fetch_options opts in
  emit EvUrl ;;;
  var u <- (λ me, (url T me, me));
  let _opt := mixin ∅ [ opts;
                        {[ "url" := u;
                           "success" := VFun (FSuccess opts);
                           "error" := VFun FError ]} ] in
  sync (VObj _opt).

(** The transport calls a function of the request it was given. *)
Definition apply (f : func) (args : list value) : M outcome :=
  match f with
  | FSuccess opts => success opts (nth 0 args VUndefined)
  | FError => error
  | FNoop => ret Returned
  | FCaller _ | FNative _ => emit (EvCall f args) ;;; ret Returned
  end.

Definition respond (request : value) (handler : string) (args : list value)
  : M outcome :=
  match get_prop request handler with
  | VFun f => apply f args
  | _ => ret TypeError
  end.

(** [arguments] after [if ( !opts ) { opts = {}; }], l.18-20: in
    non-strict code the parameter [opts] and [arguments[ 1 ]] are one
    variable when a second argument was passed, so the assignment writes to
    both. *)
Definition aliased (args : list value) : list value :=
  if truthy (nth 1 args VUndefined) then args else <[1 := VObj ∅]> args.

(** var Model = Chassis.Model = function( attributes, opts ), l.13.
    [args] is [arguments] as the caller passed them; [counter] is the state
    of [Chassis.uniqueId]. *)
Definition Model (args : list value) (counter : nat) : model * nat :=
  let attributes := nth 0 args VUndefined in
  let opts := nth 1 args VUndefined in
  let attrs := if truthy attributes then attributes else VObj ∅ in
  let opts := if truthy opts then opts else VObj ∅ in
  let arguments := aliased args in
  let '(c, counter) := uniqueId "c" counter in
  let me := Build_model [∅] 0 None c ∅ [EvUniqueId "c"] in
  let attrs := mixin ∅ [ own_props (if truthy (defaults T) then defaults T
                                    else VObj ∅);
                         own_props attrs ] in
  let me := exec (set (VObj attrs) opts VUndefined) me in
  let me := exec (emit (EvInit arguments)) me in
  (me, counter).

(** ** Notions the properties are stated with *)

(** The request the last [sync] handed to the transport. *)
Definition sent (me : model) : value :=
  match last (log me) with
  | Some (EvAjax request) => request
  | _ => VUndefined
  end.

(** The payloads published on a channel so far. *)
Definition published (channel : string) (me : model) : list (list arg) :=
  omap (λ e, match e with
             | EvTrigger c payload =>
                 if String.eqb c channel then Some payload else None
             | _ => None
             end) (log me).

(** The instance a call of [set] on a key other than [null] leaves: the
    incoming mapping [attrs] under the options [opts]. *)
Definition after_set (attrs : obj) (opts : value) (me : model) : model :=
  Build_model
    (alter (λ o, if truthy (get_prop opts "unset") then o ∖ written attrs
                 else written attrs ∪ o)
           (attributes me) (store me ++ [current me]))
    (attributes me)
    (Some (length (store me)))
    (cid me)
    (match attrs !! idAttribute T with
     | Some id => <[idAttribute T := id]> (own me)
     | None => own me
     end)
    (log me ++ (if truthy (get_prop opts "silent") then []
                else [EvTrigger "change" [Me]])).

(** The instances a program can hold: constructed, then used through the
    methods and through the functions [fetch] gave the transport. *)
Inductive reachable : model → Prop :=
| reach_Model args counter :
    reachable (Model args counter).1
| reach_set key val opts me :
    reachable me → reachable (exec (set key val opts) me)
| reach_toJSON me :
    reachable me → reachable (exec toJSON me)
| reach_change me :
    reachable me → reachable (exec change me)
| reach_fetch opts me :
    reachable me → reachable (exec (fetch opts) me)
| reach_apply f args me :
    reachable me → reachable (exec (apply f args) me).

(** [after] holds, as its previous snapshot, a new object with the
    properties the current snapshot of [before] had, and keeps them whatever
    is then written to its current snapshot. *)
Definition previous_is_copy_of (before after : model) : Prop :=
  ∃ l, _previousAttributes after = Some l
       ∧ length (store before) ≤ l
       ∧ l ≠ attributes after
       ∧ store after !! l = Some (current before)
       ∧ ∀ f, store (exec (update (attributes after) f) after) !! l
              = Some (current before).

(** The publications of one call of [set]: none under [silent], else one
    [change] with the instance as payload. *)
Definition publishes_change_once (key val opts : value) (me : model) : Prop :=
  log (exec (set key val opts) me)
  = log me ++ (if truthy (get_prop (normalize key val opts).2 "silent")
               then [] else [EvTrigger "change" [Me]]).

(** [set( A )] then [set( B )] leaves the union of [A] and [B], [B] first. *)
Definition set_set_is_union (A B : obj) (me : model) : Prop :=
  current (exec (set (VObj B) VUndefined VUndefined)
             (exec (set (VObj A) VUndefined VUndefined) me))
  = B ∪ A.


(** The success path of [fetch( opts )], issued on [me0], when the transport
    answers [resp] while the instance is [me]: [parse], then [success]
    without argument (the caller's, where the caller gave one), then [set] of
    the parsed response under the options of the [fetch]; and no publication
    where the caller asked for [silent]. *)
Definition success_path (opts resp : value) (me0 me : model) : Prop :=
  let o := fetch_options opts in
  let request := sent (exec (fetch opts) me0) in
  ∃ cb,
    get_prop (VObj o) "success" = VFun cb
    ∧ respond request "success" [resp] me
      = (Returned,
         exec (set (parse T resp (VObj o)) (VObj o) VUndefined)
           (with_log (λ es, es ++ [EvParse resp (VObj o); EvCall cb []]) me))
    ∧ (∀ f, get_prop opts "success" = VFun f → cb = f)
    ∧ (truthy (get_prop opts "silent") = true →
       log (exec (respond request "success" [resp]) me)
       = log me ++ [EvParse resp (VObj o); EvCall cb []]).

End Methods.

(** ** Instances the examples use *)

(** [new Chassis.Model()] *)
Definition untitled : model := (Model Model_prototype [] 0).1.

(** [new Chassis.Model( { title : 'a' } )] *)
Definition titled : model :=
  (Model Model_prototype [VObj {[ "title" := VStr "a" ]}] 0).1.

(** A type with defaults and with the [parse] of the example at l.291:
    [Chassis.Model.extend( { defaults : { title : 'x', views : 0 },
       parse : function( resp ) { return resp[ 'data' ]; } } )] *)
Definition Article : proto :=
  {| idAttribute := "id";
     defaults := VObj {[ "title" := VStr "x"; "views" := VNum 0 ]};
     url := λ _, VUndefined;
     parse := λ resp _, get_prop resp "data" |}.

Definition article : model :=
  (Model Article [VObj {[ "title" := VStr "a" ]}] 0).1.

(** ** One call on an instance *)

(** What a program, and the transport for it, can do to an instance it
    holds: one call of a method, or of a function of a request. *)
Inductive step (T : proto) : model → model → Prop :=
| step_set key val opts me :
    step T me (exec (set T key val opts) me)
| step_toJSON me :
    step T me (exec toJSON me)
| step_change me :
    step T me (exec change me)
| step_fetch opts me :
    step T me (exec (fetch T opts) me)
| step_apply f args me :
    step T me (exec (apply T f args) me).

(** What stays of [me] in [me']: the correlation id, the snapshot object,
    everything recorded so far, and an own identity field once it is
    there. *)
Definition keeps (T : proto) (me me' : model) : Prop :=
  cid me' = cid me
  ∧ attributes me' = attributes me
  ∧ log me `prefix_of` log me'
  ∧ (is_Some (own me !! idAttribute T) → is_Some (own me' !! idAttribute T)).

(** * Properties *)

(** ** The loop of [set] *)

Lemma with_store_id me : with_store (λ st, st) me = me.
Proof. by destruct me. Qed.

Lemma with_store_alter f g a me :
  with_store (alter f a) (with_store (alter g a) me)
  = with_store (alter (f ∘ g) a) me.
Proof. unfold with_store. cbn. by rewrite list_alter_alter_eq. Qed.

Lemma with_store_alter_ext f g a me :
  (∀ o, f o = g o) → with_store (alter f a) me = with_store (alter g a) me.
Proof.
  intros Hfg. unfold with_store. f_equal. by apply list_alter_ext.
Qed.

(** A walk over a list of entries, each one an update of one object. *)
Lemma walk_updates a (g : string → value → obj → obj) entries :
  ∀ (done : M unit) F,
    (∀ me, done me = (tt, with_store (alter F a) me)) →
    ∀ me,
      foldl (λ done entry, done ;;; update a (g entry.1 entry.2)) done
        entries me
      = (tt, with_store
               (alter (λ o, foldl (λ o entry, g entry.1 entry.2 o) (F o)
                              entries) a) me).
Proof.
  induction entries as [|entry entries IH]; intros done F Hdone me.
  - cbn. apply Hdone.
  - cbn [foldl]. apply (IH _ (λ o, g entry.1 entry.2 (F o))).
    intros me'. unfold bind. rewrite Hdone. unfold update.
    by rewrite with_store_alter.
Qed.

Lemma foldl_insert_entries (entries : list (string * value)) (o : obj) :
  foldl (λ o entry, <[entry.1 := entry.2]> o) o entries
  = list_to_map (reverse entries) ∪ o.
Proof.
  revert o. induction entries as [|[k v] entries IH]; intros o.
  - cbn. by rewrite (left_id_L ∅ (∪)).
  - cbn [foldl fst snd]. rewrite IH, reverse_cons.
    rewrite (list_to_map_app (reverse entries) [(k, v)]).
    cbn [list_to_map foldr uncurry]. rewrite insert_empty.
    rewrite (insert_union_singleton_l o). by rewrite (assoc_L (∪)).
Qed.

Lemma foldl_delete_entries (entries : list (string * value)) (o : obj) :
  foldl (λ o entry, delete entry.1 o) o entries
  = o ∖ list_to_map (reverse entries).
Proof.
  revert o. induction entries as [|[k v] entries IH]; intros o.
  - cbn. by rewrite map_difference_empty.
  - cbn [foldl fst snd]. rewrite IH, reverse_cons.
    rewrite (list_to_map_app (reverse entries) [(k, v)]).
    cbn [list_to_map foldr uncurry]. rewrite insert_empty.
    apply map_eq. intros j. rewrite !lookup_difference, lookup_union.
    destruct (decide (k = j)) as [->|Hne].
    + rewrite lookup_delete_eq, lookup_singleton_eq.
      by destruct (list_to_map (reverse entries) !! j).
    + rewrite lookup_delete_ne, lookup_singleton_ne by done.
      by destruct (list_to_map (reverse entries) !! j).
Qed.

(** Writing every property the walk passes lays them over the object. *)
Lemma each_insert a (attrs : obj) me :
  each attrs (λ key item, update a (insert key item)) me
  = (tt, with_store (alter (λ o, written attrs ∪ o) a) me).
Proof.
  unfold each, written.
  destruct (attrs !! "length") as [[| | |n| | |]|].
  4: { rewrite (walk_updates a (λ key item, insert key item) _ skip (λ o, o)).
       - apply f_equal, with_store_alter_ext. intros o.
         apply foldl_insert_entries.
       - intros me'. unfold skip, ret. f_equal.
         rewrite <- (with_store_id me') at 1. unfold with_store. f_equal.
         symmetry. by apply list_alter_id. }
  all: revert me;
    apply (map_fold_weak_ind (λ (r : M unit) (m : obj),
      ∀ me, r me = (tt, with_store (alter (λ o, m ∪ o) a) me)));
    [ intros me; unfold skip, ret; f_equal;
      rewrite <- (with_store_id me) at 1; unfold with_store; f_equal;
      symmetry; apply list_alter_id; intros o; by rewrite (left_id_L ∅ (∪))
    | intros k v m r Hk IH me; unfold bind; rewrite IH;
      unfold update; rewrite with_store_alter;
      apply f_equal, with_store_alter_ext; intros o; cbn;
      by rewrite insert_union_l ].
Qed.

(** Deleting every key the walk passes takes them off the object. *)
Lemma each_delete a (attrs : obj) me :
  each attrs (λ key _, update a (delete key)) me
  = (tt, with_store (alter (λ o, o ∖ written attrs) a) me).
Proof.
  unfold each, written.
  destruct (attrs !! "length") as [[| | |n| | |]|].
  4: { rewrite (walk_updates a (λ key _, delete key) _ skip (λ o, o)).
       - apply f_equal, with_store_alter_ext. intros o.
         apply foldl_delete_entries.
       - intros me'. unfold skip, ret. f_equal.
         rewrite <- (with_store_id me') at 1. unfold with_store. f_equal.
         symmetry. by apply list_alter_id. }
  all: revert me;
    apply (map_fold_weak_ind (λ (r : M unit) (m : obj),
      ∀ me, r me = (tt, with_store (alter (λ o, o ∖ m) a) me)));
    [ intros me; unfold skip, ret; f_equal;
      rewrite <- (with_store_id me) at 1; unfold with_store; f_equal;
      symmetry; apply list_alter_id; intros o; apply map_difference_empty
    | intros k v m r Hk IH me; unfold bind; rewrite IH;
      unfold update; rewrite with_store_alter;
      apply f_equal, with_store_alter_ext; intros o; cbn;
      apply delete_difference ].
Qed.

(** A plain mapping is walked by its own properties. *)
Lemma written_plain (attrs : obj) : plain attrs = true → written attrs = attrs.
Proof.
  unfold plain, written. by destruct (attrs !! "length").
Qed.

Section Facts.

Variable T : proto.

(** ** [set], call by call *)

Lemma set_null val opts me : set T VNull val opts me = (Me, me).
Proof. reflexivity. Qed.

Lemma set_run key val opts me :
  is_null key = false →
  set T key val opts me
  = (Val VUndefined,
     after_set T (normalize key val opts).1 (normalize key val opts).2 me).
Proof.
  intros Hkey. unfold set. rewrite Hkey.
  destruct (normalize key val opts) as [attrs o]. cbn [fst snd].
  unfold bind, this_attributes, clone, alloc, after_set. cbn.
  destruct (attrs !! idAttribute T) as [id|];
    destruct (truthy (get_prop o "unset"));
    destruct (truthy (get_prop o "silent")); cbn;
    rewrite ?each_insert, ?each_delete; cbn;
    unfold with_store, with_log, with_own, with_previous, current, deref; cbn;
    rewrite ?app_nil_r; reflexivity.
Qed.

Lemma exec_set key val opts me :
  is_null key = false →
  exec (set T key val opts) me
  = after_set T (normalize key val opts).1 (normalize key val opts).2 me.
Proof. intros Hkey. unfold exec. by rewrite set_run. Qed.

(** The mapping form of [set]: an object is its own incoming mapping. *)
Lemma normalize_object (A : obj) val opts :
  normalize (VObj A) val opts = (A, if truthy val then val else VObj ∅).
Proof. reflexivity. Qed.

(** The pair form of [set]. *)
Lemma normalize_name (name : string) val opts :
  normalize (VStr name) val opts
  = ({[ name := val ]}, if truthy opts then opts else VObj ∅).
Proof. reflexivity. Qed.

Lemma wf_lookup me : wf me → store me !! attributes me = Some (current me).
Proof.
  unfold wf, current, deref. intros Hwf.
  destruct (lookup_lt_is_Some_2 (store me) (attributes me) Hwf) as [o Ho].
  by rewrite Ho.
Qed.

Lemma current_after_set attrs opts me :
  wf me →
  current (after_set T attrs opts me)
  = if truthy (get_prop opts "unset") then current me ∖ written attrs
    else written attrs ∪ current me.
Proof.
  intros Hwf. unfold current at 1, deref, after_set. cbn.
  rewrite list_lookup_alter_eq, lookup_app_l by exact Hwf.
  by rewrite (wf_lookup me Hwf).
Qed.

Lemma previous_after_set attrs opts me :
  wf me →
  store (after_set T attrs opts me) !! length (store me) = Some (current me).
Proof.
  intros Hwf. unfold after_set. cbn.
  rewrite list_lookup_alter_ne by (unfold wf in Hwf; lia).
  rewrite lookup_app_r by lia. by rewrite Nat.sub_diag.
Qed.

Lemma wf_after_set attrs opts me : wf me → wf (after_set T attrs opts me).
Proof.
  unfold wf, after_set. cbn. rewrite length_alter, length_app. lia.
Qed.

Lemma wf_set key val opts me : wf me → wf (exec (set T key val opts) me).
Proof.
  intros Hwf. destruct (is_null key) eqn:Hkey.
  - destruct key; try discriminate. exact Hwf.
  - rewrite exec_set by exact Hkey. by apply wf_after_set.
Qed.

(** ** [fetch] and the functions it hands to the transport *)

Lemma mixin_two (a b : obj) : mixin ∅ [a; b] = b ∪ a.
Proof. unfold mixin. cbn. by rewrite (right_id_L ∅ (∪)). Qed.

(** The options of a [fetch] are the caller's over the two defaults. *)
Lemma fetch_options_eq opts :
  fetch_options opts
  = own_props opts ∪ {[ "dataType" := VStr "json"; "success" := VFun FNoop ]}.
Proof.
  unfold fetch_options, clone_value. rewrite mixin_two.
  destruct opts as [| |[]|z|s|props|f]; cbn; repeat case_match; reflexivity.
Qed.

Lemma fetch_options_silent opts :
  get_prop (VObj (fetch_options opts)) "silent" = get_prop opts "silent".
Proof.
  unfold get_prop. cbn [own_props]. rewrite fetch_options_eq, lookup_union.
  by destruct (own_props opts !! "silent").
Qed.

Lemma fetch_options_success opts :
  get_prop (VObj (fetch_options opts)) "success"
  = default (VFun FNoop) (own_props opts !! "success").
Proof.
  unfold get_prop. cbn [own_props]. rewrite fetch_options_eq, lookup_union.
  by destruct (own_props opts !! "success").
Qed.

Lemma fetch_run opts me :
  ∃ u, fetch T opts me
       = (tt, with_log (λ es, (es ++ [EvUrl]) ++
            [EvAjax (VObj ({[ "url" := u;
                              "success" := VFun (FSuccess (fetch_options opts));
                              "error" := VFun FError ]}
                           ∪ fetch_options opts))]) me).
Proof.
  exists (url T (with_log (λ es, es ++ [EvUrl]) me)).
  unfold fetch, bind, emit, sync. cbv beta iota zeta.
  rewrite mixin_two. reflexivity.
Qed.

Lemma sent_fetch opts me :
  get_prop (sent (exec (fetch T opts) me)) "success"
    = VFun (FSuccess (fetch_options opts))
  ∧ get_prop (sent (exec (fetch T opts) me)) "error" = VFun FError.
Proof.
  destruct (fetch_run opts me) as [u Hrun]. unfold exec, sent.
  rewrite Hrun. cbn [snd with_log log]. rewrite last_snoc.
  unfold get_prop. cbn [own_props].
  split; (erewrite lookup_union_Some_l; [reflexivity|]); by simplify_map_eq.
Qed.

Lemma success_run (o : obj) resp cb me :
  get_prop (VObj o) "success" = VFun cb →
  success T o resp me
  = (Returned,
     exec (set T (parse T resp (VObj o)) (VObj o) VUndefined)
       (with_log (λ es, es ++ [EvParse resp (VObj o); EvCall cb []]) me)).
Proof.
  intros Hcb. unfold success, bind, emit, call. rewrite Hcb. cbn.
  unfold exec, with_log. cbn. rewrite <- (assoc_L (++)). cbn.
  by destruct (set T _ _ _ _).
Qed.

Lemma error_run me :
  error me = (Returned, with_log (λ es, es ++ [EvTrigger "error" []]) me).
Proof. reflexivity. Qed.

Lemma wf_with_log f me : wf (with_log f me) ↔ wf me.
Proof. reflexivity. Qed.

(** The call of l.263 returns when [success] is a function or an object
    whose own [call] is one, and leaves of the instance all but the log. *)
Lemma call_run v me :
  ∃ es, call v me = (if bool_decide (es = []) then TypeError else Returned,
                     with_log (λ es0, es0 ++ es) me).
Proof.
  assert (∀ me0 : model, with_log (λ es0, es0 ++ []) me0 = me0) as Hnil.
  { intros [? ? ? ? ? ?]. unfold with_log. cbn. by rewrite (right_id_L [] (++)). }
  destruct v as [| | | | |o|f]; try (exists []; cbn; by rewrite Hnil).
  - cbn. destruct (o !! "call") as [[| | | | | |g]|];
      try (exists []; cbn; by rewrite Hnil).
    by exists [EvCallOn (VObj o) g [Me]].
  - by exists [EvCall f []].
Qed.

Lemma wf_apply f args me : wf me → wf (exec (apply T f args) me).
Proof.
  intros Hwf. destruct f as [text| |o| |name]; try exact Hwf.
  unfold apply, success, bind, emit, exec. cbn.
  destruct (call_run (get_prop (VObj o) "success")
              (with_log (λ es, es ++ [EvParse (nth 0 args VUndefined)
                                        (VObj o)]) me)) as [es ->].
  case_bool_decide; [exact Hwf|].
  destruct (set T _ _ _ _) as [r me'] eqn:Hset. cbn.
  change me' with (snd (r, me')). rewrite <- Hset.
  apply (wf_set _ _ _ _). exact Hwf.
Qed.

(** ** The constructor *)

(** [v || {}] *)
Lemma truthy_or_empty v : truthy (if truthy v then v else VObj ∅) = true.
Proof. by destruct (truthy v) eqn:Hv. Qed.

Lemma own_props_or_empty v :
  own_props (if truthy v then v else VObj ∅) = own_props v.
Proof. destruct v as [| |[]|z|s|props|f]; cbn; repeat case_match; done. Qed.

Lemma Model_run args counter :
  Model T args counter
  = (with_log (λ es, es ++ [EvInit (aliased args)])
       (after_set T
          (own_props (nth 0 args VUndefined) ∪ own_props (defaults T))
          (if truthy (nth 1 args VUndefined) then nth 1 args VUndefined
           else VObj ∅)
          (Build_model [∅] 0 None ("c" +:+ pretty (S counter)) ∅
             [EvUniqueId "c"])),
     S counter).
Proof.
  unfold Model, uniqueId. rewrite mixin_two, !own_props_or_empty.
  rewrite exec_set by reflexivity. rewrite normalize_object.
  cbn [fst snd]. by rewrite truthy_or_empty.
Qed.


(** Every instance a program can hold has its snapshot allocated. *)
Lemma reachable_wf me : reachable T me → wf me.
Proof.
  induction 1 as [args counter|key val opts me _ IH|me _ IH|me _ IH
                 |opts me _ IH|f args me _ IH].
  - rewrite Model_run. cbn [fst]. apply wf_with_log, wf_after_set.
    unfold wf. cbn. lia.
  - by apply wf_set.
  - unfold wf, exec, toJSON, bind, this_attributes, clone, alloc in *. cbn.
    rewrite length_app. lia.
  - exact IH.
  - destruct (fetch_run opts me) as [u Hrun]. unfold exec. rewrite Hrun.
    exact IH.
  - by apply wf_apply.
Qed.

(** ** The attribute store *)

Lemma has_not_null key me : has key me = true ↔ get key me ≠ VNull.
Proof. unfold has. by destruct (get key me). Qed.


(** C6: [set( null, ... )] returns the instance and leaves it as it was: no
    attribute is written or deleted, nothing is published, and the call
    cannot end in an error. *)
Theorem set_null_is_noop val opts me :
  result (set T VNull val opts) me = Me
  ∧ exec (set T VNull val opts) me = me.
Proof. split; reflexivity. Qed.

(** C4, amended: a call of [set] whose first argument is not [null] makes
    the previous snapshot a new object, other than the current snapshot,
    holding what the current snapshot held before the call wrote or deleted
    a key; whatever the incoming mapping and the options are, so also for a
    call that changes nothing or only unsets. *)
Theorem set_snapshots_previous key val opts me :
  wf me →
  is_null key = false →
  previous_is_copy_of me (exec (set T key val opts) me).
Proof.
  intros Hwf Hkey. rewrite exec_set by exact Hkey.
  exists (length (store me)). split; [reflexivity|].
  assert (length (store me) ≠ attributes me) as Hne
    by (unfold wf in Hwf; lia).
  split; [lia|]. split; [exact Hne|]. split.
  - by apply previous_after_set.
  - intros f. unfold exec, update, with_store. cbn [snd store attributes].
    change (attributes (after_set T _ _ me)) with (attributes me).
    rewrite list_lookup_alter_ne by (intros Heq; by apply Hne).
    by apply previous_after_set.
Qed.

(** C5, amended: a call of [set] whose first argument is not [null]
    publishes nothing when the options in force have [silent] set, and else
    exactly one [change] with the instance as payload, whatever the incoming
    mapping writes. *)
Theorem set_publishes_change_once key val opts me :
  is_null key = false →
  publishes_change_once T key val opts me.
Proof.
  intros Hkey. unfold publishes_change_once. by rewrite exec_set.
Qed.

(** Two calls of [set] without options: the snapshot from before, overlaid
    by the first mapping and then by the second. *)
Lemma current_set_set (A B : obj) me :
  wf me →
  plain A = true →
  plain B = true →
  current (exec (set T (VObj B) VUndefined VUndefined)
             (exec (set T (VObj A) VUndefined VUndefined) me))
  = B ∪ (A ∪ current me).
Proof.
  intros Hwf HA HB. rewrite !exec_set by reflexivity.
  rewrite !normalize_object. cbn [fst snd].
  rewrite !current_after_set by (try apply wf_after_set; exact Hwf).
  by rewrite !written_plain.
Qed.

Lemma set_set_from_empty (A B : obj) me :
  wf me → plain A = true → plain B = true →
  current me = ∅ → set_set_is_union T A B me.
Proof.
  intros Hwf HA HB Hempty. unfold set_set_is_union.
  by rewrite current_set_set, Hempty, (right_id_L ∅ (∪)).
Qed.

(** C7, amended: for mappings [A] and [B] that are plain (no
    [length], no ['__proto__']), [set( A )] then [set( B )], neither with
    options, leaves the current snapshot equal to the shallow union of the
    snapshot before the two calls, of [A] and of [B]: on common keys the
    values of [B] are over those of [A], and those of [A] over the earlier
    ones.  (On an instance whose snapshot was empty that is the union of [A]
    and [B].) *)
Theorem set_then_set (A B : obj) me :
  wf me →
  plain A = true →
  plain B = true →
  let me' := exec (set T (VObj B) VUndefined VUndefined)
               (exec (set T (VObj A) VUndefined VUndefined) me) in
  current me' = B ∪ (A ∪ current me)
  ∧ ∀ key,
      current me' !! key
      = match B !! key with
        | Some b => Some b
        | None => match A !! key with
                  | Some a => Some a
                  | None => current me !! key
                  end
        end.
Proof.
  intros Hwf HA HB. cbn zeta. rewrite current_set_set by done.
  split; [reflexivity|]. intros key. rewrite !lookup_union.
  by destruct (B !! key), (A !! key), (current me !! key).
Qed.





(** [toJSON()] is a new object with the properties of the current
    snapshot, and what the caller then does to it does not reach [get]. *)
Lemma toJSON_copy me :
  wf me →
  let l := result toJSON me in
  let me' := exec toJSON me in
  l ≠ attributes me'
  ∧ deref l me' = current me
  ∧ ∀ f key, get key (exec (update l f) me') = get key me.
Proof.
  intros Hwf. cbn zeta. unfold wf in Hwf.
  unfold result, exec, toJSON, bind, this_attributes, clone, alloc. cbn.
  split; [lia|]. split.
  - unfold deref. cbn. rewrite lookup_app_r by lia.
    by rewrite Nat.sub_diag.
  - intros f key. unfold get, current, deref. cbn.
    rewrite list_lookup_alter_ne by lia. by rewrite lookup_app_l by lia.
Qed.

(** ** The fetch life cycle *)

Lemma respond_success opts resp me0 me :
  respond T (sent (exec (fetch T opts) me0)) "success" [resp] me
  = success T (fetch_options opts) resp me.
Proof.
  unfold respond. by destruct (sent_fetch opts me0) as [-> _].
Qed.

Lemma respond_error opts args me0 me :
  respond T (sent (exec (fetch T opts) me0)) "error" args me = error me.
Proof.
  unfold respond. by destruct (sent_fetch opts me0) as [_ ->].
Qed.

Lemma exec_respond_error opts args me0 me :
  exec (respond T (sent (exec (fetch T opts) me0)) "error" args) me
  = with_log (λ es, es ++ [EvTrigger "error" []]) me.
Proof. unfold exec at 1. by rewrite respond_error. Qed.

Lemma current_fetch opts me : current (exec (fetch T opts) me) = current me.
Proof.
  destruct (fetch_run opts me) as [u Hrun]. unfold exec. by rewrite Hrun.
Qed.

(** C2: [fetch] itself leaves the current snapshot as it is, and when the
    transport calls the [error] function of the request, whenever and with
    whatever arguments, one [error] notification is published and the current
    snapshot stays as it is; so after a [fetch] that fails the snapshot is the
    one from before the [fetch]. *)
Theorem fetch_error_path opts me0 :
  let me1 := exec (fetch T opts) me0 in
  current me1 = current me0
  ∧ (∀ args me,
       respond T (sent me1) "error" args me
       = (Returned, with_log (λ es, es ++ [EvTrigger "error" []]) me)
       ∧ log (exec (respond T (sent me1) "error" args) me)
         = log me ++ [EvTrigger "error" []]
       ∧ current (exec (respond T (sent me1) "error" args) me) = current me)
  ∧ (∀ args, current (exec (respond T (sent me1) "error" args) me1)
             = current me0).
Proof.
  cbn zeta. split; [apply current_fetch|]. split.
  - intros args me. rewrite exec_respond_error, respond_error, error_run.
    by repeat split.
  - intros args. rewrite exec_respond_error. apply current_fetch.
Qed.

(** C3, amended: for a [fetch] whose [success] option, if the caller gave
    one, is a function, and a response whose parsed form is an object or
    [null]: when the transport calls the [success] function of the request
    with the response, the response goes through [parse], then the caller's
    [success] is called without argument, then the parsed response is applied
    by [set] under the options of the [fetch]; with [silent] set in the
    options of the [fetch], nothing is published. *)
Theorem fetch_success_path opts resp me0 me :
  typeof (get_prop (VObj (fetch_options opts)) "success") = "function" →
  typeof (parse T resp (VObj (fetch_options opts))) = "object" →
  success_path T opts resp me0 me.
Proof.
  intros Hfun Hobj. unfold success_path. cbn zeta.
  destruct (get_prop (VObj (fetch_options opts)) "success") as [| | | | | |cb]
    eqn:Hcb; try discriminate.
  exists cb. split; [reflexivity|].
  rewrite respond_success. rewrite (success_run _ _ cb) by exact Hcb.
  split; [reflexivity|]. split.
  { intros f Hf. rewrite fetch_options_success in Hcb.
    unfold get_prop in Hf. destruct (own_props opts !! "success"); cbn in *;
      congruence. }
  intros Hsilent.
  unfold exec at 1. rewrite respond_success, (success_run _ _ cb) by exact Hcb.
  cbn [snd].
  destruct (parse T resp (VObj (fetch_options opts))) as [| | | | |A|]
    eqn:Hparsed; try discriminate.
  - reflexivity.
  - rewrite exec_set by reflexivity. rewrite normalize_object.
    unfold after_set. cbn [fst snd truthy log with_log].
    rewrite fetch_options_silent, Hsilent. by rewrite (right_id_L [] (++)).
Qed.

End Facts.

(** ** Construction *)



(** ** On concrete instances *)

(** C1: [has( k )] is to be true exactly when [get( k )] is neither
    [undefined] nor [null].  The comparison of l.125 is [!== null]: on a
    [null] attribute [has] is false, but on a key that was never set, and on
    a key removed with [{ unset : true }], [get] is [undefined] and [has] is
    true. *)
Theorem has_is_true_for_absent_key :
  let unset := VObj {[ "unset" := VBool true ]} in
  let removed := exec (set Model_prototype (VStr "title") VUndefined unset)
                   titled in
  let nulled := exec (set Model_prototype (VStr "title") VNull VUndefined)
                  titled in
  (get "title" untitled = VUndefined ∧ has "title" untitled = true)
  ∧ (get "title" removed = VUndefined ∧ has "title" removed = true)
  ∧ (get "title" nulled = VNull ∧ has "title" nulled = false)
  ∧ (get "title" titled = VStr "a" ∧ has "title" titled = true).
Proof. cbn zeta. repeat split; vm_compute; reflexivity. Qed.

(** C3, as it was stated, fails on a response that is not an object: the
    string is taken for an attribute name, the options for its value, and
    the [change] is published although the [fetch] was silent. *)
Lemma silent_fetch_of_string_publishes_change :
  let opts := VObj {[ "silent" := VBool true ]} in
  ¬ success_path Model_prototype opts (VStr "oops") untitled
      (exec (fetch Model_prototype opts) untitled).
Proof.
  cbn zeta. intros (cb & Hcb & _ & _ & Hsilent).
  vm_compute in Hcb. injection Hcb as <-.
  specialize (Hsilent eq_refl). vm_compute in Hsilent. discriminate Hsilent.
Qed.

Lemma fetch_success_path_witness :
  let opts := VObj {[ "silent" := VBool true ]} in
  let resp := VObj {[ "data" := VObj {[ "title" := VStr "b" ]} ]} in
  typeof (get_prop (VObj (fetch_options opts)) "success") = "function"
  ∧ typeof (parse Article resp (VObj (fetch_options opts))) = "object"
  ∧ success_path Article opts resp article
      (exec (fetch Article opts) article).
Proof.
  cbn zeta. split; [reflexivity|]. split; [reflexivity|].
  apply fetch_success_path; reflexivity.
Defined.

(** C4, as it was stated, fails on [set( null )]: the call returns at l.166,
    and the previous snapshot stays the empty one of the construction while
    the current snapshot holds the title. *)
Lemma set_null_keeps_previous :
  let me := exec (set Model_prototype VNull VUndefined VUndefined) titled in
  previous me = Some ∅
  ∧ current titled = {[ "title" := VStr "a" ]}
  ∧ ¬ previous_is_copy_of titled me.
Proof.
  cbn zeta. split; [reflexivity|]. split; [reflexivity|].
  intros (l & Hprev & _ & _ & Hcopy & _).
  vm_compute in Hprev. injection Hprev as <-.
  vm_compute in Hcopy. discriminate Hcopy.
Qed.

Lemma set_snapshots_previous_witness :
  let unset := VObj {[ "unset" := VBool true ]} in
  wf titled
  ∧ is_null (VStr "title") = false
  ∧ previous_is_copy_of titled
      (exec (set Model_prototype (VStr "title") VUndefined unset) titled).
Proof.
  cbn zeta. split; [unfold wf; vm_compute; lia|]. split; [reflexivity|].
  apply set_snapshots_previous; [unfold wf; vm_compute; lia|reflexivity].
Defined.

(** C5, as it was stated, fails on [set( null )]: no option asks for
    silence, and nothing is published. *)
Lemma set_null_publishes_nothing :
  ¬ publishes_change_once Model_prototype VNull VUndefined VUndefined untitled.
Proof.
  unfold publishes_change_once. vm_compute. intros Hlog. discriminate Hlog.
Qed.

Lemma set_publishes_change_once_witness :
  is_null (VObj ∅) = false
  ∧ publishes_change_once Model_prototype (VObj ∅) VUndefined VUndefined
      titled.
Proof.
  split; [reflexivity|]. apply set_publishes_change_once. reflexivity.
Defined.

(** C7, as it was stated, fails on an instance that holds attributes
    already: the title stays beside [a] and [b]. *)
Lemma set_then_set_keeps_title :
  ¬ set_set_is_union Model_prototype {[ "a" := VNum 1 ]} {[ "b" := VNum 2 ]}
      titled.
Proof.
  unfold set_set_is_union. intros Hunion.
  apply (f_equal (λ m : obj, m !! "title")) in Hunion.
  vm_compute in Hunion. discriminate Hunion.
Qed.

Lemma set_then_set_witness :
  let A : obj := {[ "a" := VNum 1; "b" := VNum 1 ]} in
  let B : obj := {[ "b" := VNum 2 ]} in
  let me' := exec (set Model_prototype (VObj B) VUndefined VUndefined)
               (exec (set Model_prototype (VObj A) VUndefined VUndefined)
                  titled) in
  wf titled
  ∧ plain A = true
  ∧ plain B = true
  ∧ (current me' = B ∪ (A ∪ current titled)
     ∧ ∀ key,
         current me' !! key
         = match B !! key with
           | Some b => Some b
           | None => match A !! key with
                     | Some a => Some a
                     | None => current titled !! key
                     end
           end).
Proof.
  cbn zeta. split; [unfold wf; vm_compute; lia|].
  split; [reflexivity|]. split; [reflexivity|].
  apply set_then_set; [unfold wf; vm_compute; lia|reflexivity..].
Defined.







(** The scenario of the example at l.284-300: the response
    [{ data : { title : 'b' } }] under a [parse] that returns [resp.data]
    sets the title and publishes one more [change]. *)
Lemma fetch_parse_scenario :
  let resp := VObj {[ "data" := VObj {[ "title" := VStr "b" ]} ]} in
  let me1 := exec (fetch Article VUndefined) article in
  let me2 := exec (respond Article (sent me1) "success" [resp]) me1 in
  get "title" me2 = VStr "b"
  ∧ get "views" me2 = VNum 0
  ∧ published "change" me2 = published "change" me1 ++ [[Me]].
Proof. cbn zeta. repeat split; vm_compute; reflexivity. Qed.

(** Two [fetch] calls in flight are not ordered: when the second is answered
    before the first, the answer to the first is what stays. *)
Lemma overlapping_fetches_scenario :
  let answer title := VObj {[ "data" := VObj {[ "title" := VStr title ]} ]} in
  let me1 := exec (fetch Article VUndefined) article in
  let me2 := exec (fetch Article VUndefined) me1 in
  let me3 := exec (respond Article (sent me2) "success" [answer "second"])
               me2 in
  let me4 := exec (respond Article (sent me1) "success" [answer "first"])
               me3 in
  get "title" me3 = VStr "second" ∧ get "title" me4 = VStr "first".
Proof. cbn zeta. split; vm_compute; reflexivity. Qed.

(** A [success] option that is not a function: the call of l.263 throws
    after [parse], and nothing is applied. *)
Lemma success_not_a_function_scenario :
  let opts := VObj {[ "success" := VNum 5 ]} in
  let resp := VObj {[ "title" := VStr "b" ]} in
  let me1 := exec (fetch Model_prototype opts) titled in
  let answered := respond Model_prototype (sent me1) "success" [resp] in
  result answered me1 = TypeError
  ∧ get "title" (exec answered me1) = VStr "a".
Proof. cbn zeta. split; vm_compute; reflexivity. Qed.

(** * Further properties of the methods *)

Section More.

Variable T : proto.

(** ** [set] and what [get] and [has] then see *)

Lemma published_with_log channel es me :
  published channel (with_log (λ es0, es0 ++ es) me)
  = published channel me
    ++ omap (λ e, match e with
                  | EvTrigger c payload =>
                      if String.eqb c channel then Some payload else None
                  | _ => None
                  end) es.
Proof. unfold published. cbn. apply omap_app. Qed.





(** X4: in the mapping form the options are the second argument; with a
    second argument that is falsy a third one is ignored: a plain mapping is
    written and one [change] is published, whatever the third argument asks
    for. *)
Theorem set_mapping_ignores_third_argument (A : obj) val opts me :
  wf me →
  plain A = true →
  truthy val = false →
  current (exec (set T (VObj A) val opts) me) = A ∪ current me
  ∧ log (exec (set T (VObj A) val opts) me)
    = log me ++ [EvTrigger "change" [Me]].
Proof.
  intros Hwf Hplain Hval. rewrite exec_set by reflexivity.
  rewrite normalize_object, Hval. cbn [fst snd].
  rewrite current_after_set by exact Hwf.
  by rewrite written_plain.
Qed.

(** X5: [unset] is no undo: for a plain mapping [A], [set( A )] followed by
    [set( A, { unset : true } )] leaves the snapshot from before the two
    calls without the keys of [A], also without those it held before. *)
Theorem set_then_unset (A : obj) me :
  wf me →
  plain A = true →
  current (exec (set T (VObj A) (VObj {[ "unset" := VBool true ]}) VUndefined)
             (exec (set T (VObj A) VUndefined VUndefined) me))
  = current me ∖ A.
Proof.
  intros Hwf Hplain. rewrite !exec_set by reflexivity.
  rewrite !normalize_object. cbn [fst snd truthy].
  rewrite !current_after_set by (try apply wf_after_set; exact Hwf).
  rewrite !written_plain by exact Hplain.
  change (truthy (get_prop (VObj {[ "unset" := VBool true ]}) "unset"))
    with true.
  change (truthy (get_prop (VObj ∅) "unset")) with false. cbn iota.
  apply map_eq. intros k. rewrite !lookup_difference, lookup_union.
  by destruct (A !! k), (current me !! k).
Qed.

(** X6: [set] does not compare values: the same mapping set a second time
    changes no attribute, but publishes one more [change] and replaces the
    previous snapshot by a copy of the current one. *)
Theorem set_twice (A : obj) me :
  wf me →
  let me1 := exec (set T (VObj A) VUndefined VUndefined) me in
  let me2 := exec (set T (VObj A) VUndefined VUndefined) me1 in
  current me2 = current me1
  ∧ previous me2 = Some (current me1)
  ∧ published "change" me2 = published "change" me ++ [[Me]; [Me]].
Proof.
  intros Hwf. cbn zeta.
  assert (wf (exec (set T (VObj A) VUndefined VUndefined) me)) as Hwf1
    by (by apply wf_set).
  rewrite (exec_set T (VObj A) _ _ (exec _ me)) by reflexivity.
  rewrite normalize_object. cbn [fst snd truthy]. split; [|split].
  - rewrite current_after_set by exact Hwf1.
    change (truthy (get_prop (VObj ∅) "unset")) with false. cbn iota.
    rewrite exec_set, normalize_object by reflexivity. cbn [fst snd truthy].
    rewrite current_after_set by exact Hwf.
    change (truthy (get_prop (VObj ∅) "unset")) with false. cbn iota.
    by rewrite (assoc_L (∪)), (idemp_L (∪) (written A)).
  - unfold previous. cbn [_previousAttributes after_set mbind option_bind].
    by apply previous_after_set.
  - rewrite exec_set, normalize_object by reflexivity. cbn [fst snd truthy].
    unfold published, after_set. cbn [log].
    change (truthy (get_prop (VObj ∅) "silent")) with false. cbn iota.
    rewrite !omap_app. cbn. by rewrite <- (assoc_L (++)).
Qed.

(** X15: [silent] mutes the publication and nothing else: with or without
    it, a [set] leaves the same objects, the same previous snapshot and the
    same own identity field. *)
Theorem silent_only_mutes (A O : obj) s opts me :
  let quiet := exec (set T (VObj A) (VObj (<["silent" := s]> O)) opts) me in
  let loud := exec (set T (VObj A) (VObj (delete "silent" O)) opts) me in
  store quiet = store loud
  ∧ _previousAttributes quiet = _previousAttributes loud
  ∧ own quiet = own loud
  ∧ cid quiet = cid loud.
Proof.
  cbn zeta. rewrite !exec_set by reflexivity. rewrite !normalize_object.
  cbn [fst snd truthy]. unfold after_set. cbn [store _previousAttributes own cid].
  assert (get_prop (VObj (<["silent" := s]> O)) "unset"
          = get_prop (VObj (delete "silent" O)) "unset") as ->.
  { unfold get_prop. cbn [own_props].
    by rewrite lookup_insert_ne, lookup_delete_ne. }
  done.
Qed.

(** ** What no call does *)

Lemma success_throws (o : obj) resp me :
  callable (get_prop (VObj o) "success") = false →
  success T o resp me
  = (TypeError, with_log (λ es, es ++ [EvParse resp (VObj o)]) me).
Proof.
  intros Hcall. unfold success, bind, emit, call.
  destruct (get_prop (VObj o) "success") as [| | | | |c|]; try done.
  cbn in Hcall. by destruct (c !! "call") as [[]|].
Qed.

Lemma keeps_refl me : keeps T me me.
Proof. by repeat split. Qed.

Lemma keeps_trans me1 me2 me3 :
  keeps T me1 me2 → keeps T me2 me3 → keeps T me1 me3.
Proof.
  intros (Hc1 & Ha1 & Hl1 & Ho1) (Hc2 & Ha2 & Hl2 & Ho2).
  split; [congruence|]. split; [congruence|].
  split; [by etrans|]. auto.
Qed.

Lemma keeps_with_log es me : keeps T me (with_log (λ es0, es0 ++ es) me).
Proof. repeat split; [by apply prefix_app_r|done]. Qed.

Lemma keeps_set key val opts me : keeps T me (exec (set T key val opts) me).
Proof.
  destruct (is_null key) eqn:Hkey.
  - destruct key; try discriminate. apply keeps_refl.
  - rewrite exec_set by exact Hkey. unfold keeps, after_set. cbn.
    split; [done|]. split; [done|]. split; [by apply prefix_app_r|].
    intros Hid.
    destruct ((normalize key val opts).1 !! idAttribute T); [|exact Hid].
    rewrite lookup_insert_eq. by eexists.
Qed.

Lemma keeps_step me me' : step T me me' → keeps T me me'.
Proof.
  intros [key val opts me0|me0|me0|opts me0|f args me0].
  - apply keeps_set.
  - by repeat split.
  - apply keeps_with_log.
  - destruct (fetch_run T opts me0) as [u Hrun]. unfold exec. rewrite Hrun.
    cbn [snd]. repeat split; [|done].
    cbn. rewrite <- (assoc_L (++)). by apply prefix_app_r.
  - destruct f as [text| |o| |name].
    + apply keeps_with_log.
    + apply keeps_refl.
    + unfold apply, success, bind, emit, exec. cbn.
      destruct (call_run (get_prop (VObj o) "success")
                  (with_log (λ es, es ++ [EvParse (nth 0 args VUndefined)
                                            (VObj o)]) me0)) as [es ->].
      eapply keeps_trans; [apply keeps_with_log|].
      eapply keeps_trans; [apply (keeps_with_log es)|].
      case_bool_decide; [apply keeps_refl|].
      destruct (set T _ _ _ _) as [r me1] eqn:Hset. cbn.
      change me1 with (snd (r, me1)). rewrite <- Hset.
      apply (keeps_set _ _ _ _).
    + apply keeps_with_log.
    + apply keeps_with_log.
Qed.

(** X7: whatever calls are made on an instance, by the program or by the
    transport, its correlation id and its snapshot object stay the same,
    nothing that was recorded as published or called is taken back, and the
    own identity field, once a [set] has written it, is never removed (not
    by an [unset] either). *)
Theorem calls_keep me me' :
  rtc (step T) me me' → keeps T me me'.
Proof.
  induction 1 as [me|me1 me2 me3 Hstep _ IH].
  - apply keeps_refl.
  - eapply keeps_trans; [by apply keeps_step|exact IH].
Qed.

(** ** [fetch] and its request *)

Lemma fetch_exec opts me :
  exec (fetch T opts) me
  = with_log (λ es, (es ++ [EvUrl]) ++
      [EvAjax (VObj ({[ "url" := url T (exec (emit EvUrl) me);
                        "success" := VFun (FSuccess (fetch_options opts));
                        "error" := VFun FError ]}
                     ∪ fetch_options opts))]) me.
Proof.
  unfold exec at 1, fetch, bind, emit, sync. cbv beta iota zeta.
  rewrite mixin_two. reflexivity.
Qed.

Lemma fetch_options_other opts k :
  k ≠ "dataType" → k ≠ "success" →
  get_prop (VObj (fetch_options opts)) k = get_prop opts k.
Proof.
  intros Hd Hs. unfold get_prop. cbn [own_props]. rewrite fetch_options_eq.
  destruct (own_props opts !! k) as [v|] eqn:Hk.
  - by rewrite (lookup_union_Some_l _ _ _ v).
  - rewrite lookup_union_r by exact Hk.
    by rewrite lookup_insert_ne, lookup_singleton_ne.
Qed.

(** X8: the request [fetch] hands to [sync] has the [url] the instance's
    [url()] returns and the [success] and [error] functions of [fetch]
    itself, whatever the caller passed under these three names; every other
    option of the caller passes through, and [dataType] is ['json'] unless
    the caller gave one. *)
Theorem fetch_request opts k me :
  get_prop (sent (exec (fetch T opts) me)) k
  = if decide (k = "url") then url T (exec (emit EvUrl) me)
    else if decide (k = "success") then VFun (FSuccess (fetch_options opts))
    else if decide (k = "error") then VFun FError
    else default (if decide (k = "dataType") then VStr "json" else VUndefined)
           (own_props opts !! k).
Proof.
  rewrite fetch_exec. unfold sent. cbn [log with_log]. rewrite last_snoc.
  unfold get_prop. cbn [own_props].
  repeat case_decide; subst.
  - by rewrite (lookup_union_Some_l _ _ _ (url T (exec (emit EvUrl) me))).
  - by rewrite (lookup_union_Some_l _ _ _
                  (VFun (FSuccess (fetch_options opts))))
      by (by simplify_map_eq).
  - by rewrite (lookup_union_Some_l _ _ _ (VFun FError))
      by (by simplify_map_eq).
  - rewrite lookup_union_r by (by simplify_map_eq).
    rewrite fetch_options_eq.
    destruct (own_props opts !! "dataType") as [v|] eqn:Hk.
    + by rewrite (lookup_union_Some_l _ _ _ v).
    + by rewrite lookup_union_r by exact Hk.
  - rewrite lookup_union_r by (by simplify_map_eq).
    rewrite fetch_options_eq.
    destruct (own_props opts !! k) as [v|] eqn:Hk.
    + by rewrite (lookup_union_Some_l _ _ _ v).
    + rewrite lookup_union_r by exact Hk.
      by rewrite lookup_insert_ne, lookup_singleton_ne.
Qed.

(** X9: [fetch] itself changes nothing of the instance and publishes
    nothing: it calls [url()] once and hands one request to [sync]; the
    attributes only change when the transport answers. *)
Theorem fetch_only_asks opts me :
  exec (fetch T opts) me
  = with_log (λ es, es ++ [EvUrl; EvAjax (sent (exec (fetch T opts) me))]) me
  ∧ ∀ channel,
      published channel (exec (fetch T opts) me) = published channel me.
Proof.
  assert (exec (fetch T opts) me
          = with_log (λ es, es ++ [EvUrl;
              EvAjax (sent (exec (fetch T opts) me))]) me) as Hexec.
  { unfold sent. rewrite fetch_exec. cbn [log with_log]. rewrite last_snoc.
    unfold with_log. by rewrite <- (assoc_L (++)). }
  split; [exact Hexec|]. intros channel.
  rewrite Hexec, published_with_log. cbn. by rewrite (right_id_L [] (++)).
Qed.

(** ** When the transport answers *)

Lemma callable_function v :
  typeof v = "function" → ∃ cb, v = VFun cb.
Proof. destruct v; try discriminate. by eexists. Qed.

Lemma answer_object opts resp (A : obj) cb me0 me :
  get_prop (VObj (fetch_options opts)) "success" = VFun cb →
  parse T resp (VObj (fetch_options opts)) = VObj A →
  respond T (sent (exec (fetch T opts) me0)) "success" [resp] me
  = (Returned,
     after_set T A (VObj (fetch_options opts))
       (with_log (λ es, es ++ [EvParse resp (VObj (fetch_options opts));
                               EvCall cb []]) me)).
Proof.
  intros Hcb Hparsed. rewrite respond_success, (success_run T _ _ cb) by done.
  rewrite Hparsed, exec_set by reflexivity. by rewrite normalize_object.
Qed.

Lemma current_answer_object opts resp (A : obj) me0 me :
  wf me →
  plain A = true →
  typeof (get_prop (VObj (fetch_options opts)) "success") = "function" →
  parse T resp (VObj (fetch_options opts)) = VObj A →
  current (exec (respond T (sent (exec (fetch T opts) me0)) "success" [resp])
             me)
  = if truthy (get_prop opts "unset") then current me ∖ A
    else A ∪ current me.
Proof.
  intros Hwf Hplain Hfun Hparsed.
  destruct (callable_function _ Hfun) as [cb Hcb].
  unfold exec at 1. rewrite (answer_object _ _ A cb) by done. cbn [snd].
  rewrite current_after_set by exact Hwf.
  rewrite written_plain by exact Hplain.
  by rewrite fetch_options_other.
Qed.

Lemma wf_answer opts resp me0 me :
  wf me →
  wf (exec (respond T (sent (exec (fetch T opts) me0)) "success" [resp]) me).
Proof.
  intros Hwf. unfold exec at 1. rewrite respond_success.
  apply (wf_apply T (FSuccess (fetch_options opts)) [resp] me Hwf).
Qed.

(** X10: when the transport answers a [fetch] with a response whose parsed
    form is a plain object (no [length], no ['__proto__']), the
    caller's [success] being a function, the properties
    of that object are laid over the current snapshot (or, if the [fetch]
    was given [unset], deleted from it: a [fetch] with [unset] removes what
    the server names), the previous snapshot is the one from before the
    answer, and one [change] is published unless the [fetch] was silent. *)
Theorem answer_applies_response opts resp (A : obj) me0 me :
  wf me →
  plain A = true →
  typeof (get_prop (VObj (fetch_options opts)) "success") = "function" →
  parse T resp (VObj (fetch_options opts)) = VObj A →
  let answered :=
    respond T (sent (exec (fetch T opts) me0)) "success" [resp] in
  result answered me = Returned
  ∧ current (exec answered me)
    = (if truthy (get_prop opts "unset") then current me ∖ A
       else A ∪ current me)
  ∧ previous (exec answered me) = Some (current me)
  ∧ published "change" (exec answered me)
    = published "change" me
      ++ (if truthy (get_prop opts "silent") then [] else [[Me]]).
Proof.
  intros Hwf Hplain Hfun Hparsed. cbn zeta.
  split; [|split; [by apply current_answer_object|]].
  { destruct (callable_function _ Hfun) as [cb Hcb].
    unfold result. by rewrite (answer_object _ _ A cb). }
  destruct (callable_function _ Hfun) as [cb Hcb].
  unfold exec at 1 3. rewrite (answer_object _ _ A cb) by done. cbn [snd].
  split.
  - unfold previous. cbn [_previousAttributes after_set mbind option_bind].
    apply (previous_after_set T A _ (with_log _ me)). exact Hwf.
  - unfold published, after_set. cbn [log with_log].
    rewrite !omap_app, fetch_options_silent. cbn.
    rewrite (right_id_L [] (++)). by destruct (truthy (get_prop opts "silent")).
Qed.

(** X11: a response whose parsed form is [null] changes nothing: after
    [parse] and the caller's [success], [set( null, opts )] returns at once,
    no attribute and no previous snapshot is touched, and no [change] is
    published, silent or not. *)
Theorem answer_null_response opts resp me0 me :
  typeof (get_prop (VObj (fetch_options opts)) "success") = "function" →
  parse T resp (VObj (fetch_options opts)) = VNull →
  let answered :=
    respond T (sent (exec (fetch T opts) me0)) "success" [resp] in
  result answered me = Returned
  ∧ store (exec answered me) = store me
  ∧ _previousAttributes (exec answered me) = _previousAttributes me
  ∧ own (exec answered me) = own me
  ∧ ∀ channel, published channel (exec answered me) = published channel me.
Proof.
  intros Hfun Hparsed. cbn zeta.
  destruct (callable_function _ Hfun) as [cb Hcb].
  pose proof (respond_success T opts resp me0 me) as Hrun.
  rewrite (success_run T _ _ cb), Hparsed in Hrun by done.
  change (exec (set T VNull ?v ?o) ?m) with m in Hrun.
  remember (sent (exec (fetch T opts) me0)) as request.
  unfold result, exec. rewrite Hrun. cbn [fst snd]. repeat split.
  intros channel. rewrite published_with_log. cbn.
  by rewrite (right_id_L [] (++)).
Qed.

(** X12: when the [success] option of a [fetch] is neither a function nor
    an object with a function for [call], the answer of the transport ends in
    a [TypeError] at l.263: the response has gone through [parse], nothing is
    applied and nothing is published. *)
Theorem answer_without_callback opts resp me0 me :
  callable (get_prop (VObj (fetch_options opts)) "success") = false →
  let answered :=
    respond T (sent (exec (fetch T opts) me0)) "success" [resp] in
  result answered me = TypeError
  ∧ exec answered me
    = with_log (λ es, es ++ [EvParse resp (VObj (fetch_options opts))]) me.
Proof.
  intros Hfun. cbn zeta.
  pose proof (respond_success T opts resp me0 me) as Hrun.
  rewrite success_throws in Hrun by exact Hfun.
  remember (sent (exec (fetch T opts) me0)) as request.
  unfold result, exec. by rewrite Hrun.
Qed.

(** X13: two [fetch] calls in flight are not ordered by their issue: when
    the one issued second is answered first (both answers plain objects),
    the answer to the first is laid over it, so on common keys the answer
    that arrives last stays, and keys only the earlier answer had stay
    too. *)
Theorem last_answer_wins opts1 opts2 resp1 resp2 (A1 A2 : obj) me1 me2 me :
  wf me →
  plain A1 = true →
  plain A2 = true →
  typeof (get_prop (VObj (fetch_options opts1)) "success") = "function" →
  typeof (get_prop (VObj (fetch_options opts2)) "success") = "function" →
  parse T resp1 (VObj (fetch_options opts1)) = VObj A1 →
  parse T resp2 (VObj (fetch_options opts2)) = VObj A2 →
  truthy (get_prop opts1 "unset") = false →
  truthy (get_prop opts2 "unset") = false →
  let first := sent (exec (fetch T opts1) me1) in
  let second := sent (exec (fetch T opts2) me2) in
  current (exec (respond T first "success" [resp1])
             (exec (respond T second "success" [resp2]) me))
  = A1 ∪ (A2 ∪ current me).
Proof.
  intros Hwf Hplain1 Hplain2 Hfun1 Hfun2 Hparsed1 Hparsed2 Hunset1 Hunset2.
  cbn zeta.
  rewrite (current_answer_object opts1 resp1 A1) by (try apply wf_answer; done).
  rewrite (current_answer_object opts2 resp2 A2) by done.
  by rewrite Hunset1, Hunset2.
Qed.


(** ** [toJSON] *)

(** X14: [toJSON()] returns a new object with the properties of the current
    snapshot and leaves the instance as it was; what the caller then writes
    to that object does not reach [get], and what a later [set] writes does
    not reach that object. *)
Theorem toJSON_is_detached me :
  wf me →
  let json := result toJSON me in
  let me' := exec toJSON me in
  deref json me' = current me
  ∧ current me' = current me
  ∧ log me' = log me
  ∧ (∀ f key, get key (exec (update json f) me') = get key me)
  ∧ (∀ key val opts, deref json (exec (set T key val opts) me') = current me).
Proof.
  intros Hwf. cbn zeta. unfold wf in Hwf.
  assert (result toJSON me = length (store me)) as -> by reflexivity.
  assert (exec toJSON me = with_store (λ st, st ++ [current me]) me) as ->
    by reflexivity.
  assert (deref (length (store me))
            (with_store (λ st, st ++ [current me]) me) = current me) as Hjson.
  { unfold deref. cbn. rewrite lookup_app_r by lia. by rewrite Nat.sub_diag. }
  split; [exact Hjson|]. split.
  { unfold current, deref. cbn. by rewrite lookup_app_l by lia. }
  split; [reflexivity|]. split.
  - intros f key. unfold get, current, deref. cbn.
    rewrite list_lookup_alter_ne by lia. by rewrite lookup_app_l by lia.
  - intros key val opts. destruct (is_null key) eqn:Hkey.
    + destruct key; try discriminate. exact Hjson.
    + rewrite exec_set by exact Hkey. unfold deref, after_set. cbn.
      rewrite list_lookup_alter_ne by lia.
      rewrite lookup_app_l by (rewrite length_app; cbn; lia).
      rewrite lookup_app_r by lia. by rewrite Nat.sub_diag.
Qed.

End More.

(** ** The further properties on concrete instances *)




Lemma set_mapping_ignores_third_argument_witness :
  let A : obj := {[ "title" := VStr "b" ]} in
  let third := VObj {[ "silent" := VBool true; "unset" := VBool true ]} in
  wf titled
  ∧ plain A = true
  ∧ truthy VUndefined = false
  ∧ (current (exec (set Model_prototype (VObj A) VUndefined third) titled)
     = A ∪ current titled
     ∧ log (exec (set Model_prototype (VObj A) VUndefined third) titled)
       = log titled ++ [EvTrigger "change" [Me]]).
Proof.
  cbn zeta. split; [unfold wf; vm_compute; lia|].
  split; [reflexivity|]. split; [reflexivity|].
  apply (set_mapping_ignores_third_argument Model_prototype);
    [unfold wf; vm_compute; lia|reflexivity..].
Defined.

Lemma set_then_unset_witness :
  let A : obj := {[ "title" := VStr "b" ]} in
  wf titled
  ∧ plain A = true
  ∧ current (exec (set Model_prototype (VObj A)
                     (VObj {[ "unset" := VBool true ]}) VUndefined)
               (exec (set Model_prototype (VObj A) VUndefined VUndefined)
                  titled))
    = current titled ∖ A.
Proof.
  cbn zeta. split; [unfold wf; vm_compute; lia|]. split; [reflexivity|].
  apply (set_then_unset Model_prototype);
    [unfold wf; vm_compute; lia|reflexivity].
Defined.

Lemma set_twice_witness :
  let A : obj := {[ "title" := VStr "a" ]} in
  let me1 := exec (set Model_prototype (VObj A) VUndefined VUndefined)
               titled in
  let me2 := exec (set Model_prototype (VObj A) VUndefined VUndefined) me1 in
  wf titled
  ∧ (current me2 = current me1
     ∧ previous me2 = Some (current me1)
     ∧ published "change" me2 = published "change" titled ++ [[Me]; [Me]]).
Proof.
  cbn zeta. split; [unfold wf; vm_compute; lia|].
  apply (set_twice Model_prototype). unfold wf; vm_compute; lia.
Defined.

Lemma calls_keep_witness :
  let unset := VObj {[ "unset" := VBool true ]} in
  let me1 := exec (set Model_prototype (VStr "id") (VNum 7) VUndefined)
               untitled in
  let me2 := exec (set Model_prototype (VStr "id") VUndefined unset) me1 in
  let me3 := exec (fetch Model_prototype VUndefined) me2 in
  rtc (step Model_prototype) me1 me3
  ∧ keeps Model_prototype me1 me3.
Proof.
  cbn zeta.
  assert (rtc (step Model_prototype)
            (exec (set Model_prototype (VStr "id") (VNum 7) VUndefined)
               untitled)
            (exec (fetch Model_prototype VUndefined)
               (exec (set Model_prototype (VStr "id") VUndefined
                        (VObj {[ "unset" := VBool true ]}))
                  (exec (set Model_prototype (VStr "id") (VNum 7) VUndefined)
                     untitled)))) as Hcalls.
  { eapply rtc_l; [apply step_set|]. apply rtc_once, step_fetch. }
  split; [exact Hcalls|]. apply calls_keep. exact Hcalls.
Defined.

Lemma answer_applies_response_witness :
  let resp := VObj {[ "data" := VObj {[ "title" := VStr "b" ]} ]} in
  let A : obj := {[ "title" := VStr "b" ]} in
  let answered :=
    respond Article (sent (exec (fetch Article VUndefined) article))
      "success" [resp] in
  wf article
  ∧ plain A = true
  ∧ typeof (get_prop (VObj (fetch_options VUndefined)) "success") = "function"
  ∧ parse Article resp (VObj (fetch_options VUndefined)) = VObj A
  ∧ (result answered article = Returned
     ∧ current (exec answered article)
       = (if truthy (get_prop VUndefined "unset") then current article ∖ A
          else A ∪ current article)
     ∧ previous (exec answered article) = Some (current article)
     ∧ published "change" (exec answered article)
       = published "change" article
         ++ (if truthy (get_prop VUndefined "silent") then [] else [[Me]])).
Proof.
  cbn zeta. split; [unfold wf; vm_compute; lia|].
  do 3 (split; [reflexivity|]).
  apply (answer_applies_response Article);
    [unfold wf; vm_compute; lia|reflexivity..].
Defined.

Lemma answer_null_response_witness :
  let answered :=
    respond Model_prototype
      (sent (exec (fetch Model_prototype VUndefined) titled))
      "success" [VNull] in
  typeof (get_prop (VObj (fetch_options VUndefined)) "success") = "function"
  ∧ parse Model_prototype VNull (VObj (fetch_options VUndefined)) = VNull
  ∧ (result answered titled = Returned
     ∧ store (exec answered titled) = store titled
     ∧ _previousAttributes (exec answered titled)
       = _previousAttributes titled
     ∧ own (exec answered titled) = own titled
     ∧ ∀ channel,
         published channel (exec answered titled) = published channel titled).
Proof.
  cbn zeta. split; [reflexivity|]. split; [reflexivity|].
  apply (answer_null_response Model_prototype); reflexivity.
Defined.

Lemma answer_without_callback_witness :
  let opts := VObj {[ "success" := VNum 5 ]} in
  let resp := VObj {[ "title" := VStr "b" ]} in
  let answered :=
    respond Model_prototype (sent (exec (fetch Model_prototype opts) titled))
      "success" [resp] in
  callable (get_prop (VObj (fetch_options opts)) "success") = false
  ∧ (result answered titled = TypeError
     ∧ exec answered titled
       = with_log (λ es, es ++ [EvParse resp (VObj (fetch_options opts))])
           titled).
Proof.
  cbn zeta. split; [reflexivity|].
  apply (answer_without_callback Model_prototype). reflexivity.
Defined.

Lemma last_answer_wins_witness :
  let resp1 := VObj {[ "data" := VObj {[ "title" := VStr "first" ]} ]} in
  let resp2 := VObj {[ "data" := VObj {[ "title" := VStr "second";
                                           "views" := VNum 9 ]} ]} in
  let A1 : obj := {[ "title" := VStr "first" ]} in
  let A2 : obj := {[ "title" := VStr "second"; "views" := VNum 9 ]} in
  let me1 := exec (fetch Article VUndefined) article in
  let me2 := exec (fetch Article VUndefined) me1 in
  wf me2
  ∧ plain A1 = true
  ∧ plain A2 = true
  ∧ typeof (get_prop (VObj (fetch_options VUndefined)) "success") = "function"
  ∧ typeof (get_prop (VObj (fetch_options VUndefined)) "success") = "function"
  ∧ parse Article resp1 (VObj (fetch_options VUndefined)) = VObj A1
  ∧ parse Article resp2 (VObj (fetch_options VUndefined)) = VObj A2
  ∧ truthy (get_prop VUndefined "unset") = false
  ∧ truthy (get_prop VUndefined "unset") = false
  ∧ current (exec (respond Article (sent me1) "success" [resp1])
               (exec (respond Article (sent me2) "success" [resp2]) me2))
    = A1 ∪ (A2 ∪ current me2).
Proof.
  cbn zeta. split; [unfold wf; vm_compute; lia|].
  do 8 (split; [reflexivity|]).
  apply (last_answer_wins Article);
    [unfold wf; vm_compute; lia|reflexivity..].
Defined.

Lemma toJSON_is_detached_witness :
  let json := result toJSON titled in
  let me' := exec toJSON titled in
  wf titled
  ∧ (deref json me' = current titled
     ∧ current me' = current titled
     ∧ log me' = log titled
     ∧ (∀ f key, get key (exec (update json f) me') = get key titled)
     ∧ (∀ key val opts,
          deref json (exec (set Model_prototype key val opts) me')
          = current titled)).
Proof.
  cbn zeta. split; [unfold wf; vm_compute; lia|].
  apply (toJSON_is_detached Model_prototype). unfold wf; vm_compute; lia.
Defined.

